(** * readflag.c: the privileged flag reader

    A shallow embedding of
    [function/template/templates/others/readflag/readflag.c] and of the
    part of the C library it calls ([fopen], [fgetc], [printf] with the
    [%c] conversion, [perror], [fclose], [exit]), followed by the
    properties of the program.

    The program is a single [main]: it opens a fixed path, copies the
    stream to standard output one character at a time and closes it.
    Its only local state is the handle [fp] and the character [ch];
    every effect goes through the C library, so the library is modelled
    as a small state monad over an explicit process state. *)

From Stdlib Require Import ZArith Strings.Byte.
From stdpp Require Import base option list strings gmap.

Local Open Scope Z_scope.

(** ** C integer conversions *)

Module C.

(** Whether plain [char] is signed is left to the implementation by the
    C standard.  The build recipe in the header of the source names
    [gcc]; on its x86-64 targets plain [char] is signed. *)
Inductive char_kind : Set := SignedChar | UnsignedChar.

(** [<stdio.h>] and [<stdlib.h>] of the GNU C library. *)
Definition EOF : Z := -1.
Definition EXIT_FAILURE : Z := 1.

(** The value of an [unsigned char] as an [int]. *)
Definition int_of_byte (b : byte) : Z := Z.of_N (Byte.to_N b).

(** Conversion of an [int] to plain [char], read back as an [int]
    (the integer promotion applied to [ch] in [ch != EOF] and in the
    variadic call of [printf]). *)
Definition to_char (k : char_kind) (v : Z) : Z :=
  match k with
  | SignedChar => (v + 128) mod 256 - 128
  | UnsignedChar => v mod 256
  end.

(** Conversion of an [int] to [unsigned char], as [%c] does. *)
Definition to_uchar (v : Z) : byte :=
  default x00 (Byte.of_N (Z.to_N (v mod 256))).

End C.

Import C.

(** ** The process and its environment *)

(** A file as [fopen] finds it: its bytes and, for a device that fails,
    the number of reads that succeed before one fails ([Some n]: the first
    [n] calls of [fgetc] deliver a byte, the next reports a read error;
    [None]: no read fails). *)
Record file : Type := mkfile {
  f_bytes : list byte;
  f_fault : option nat
}.

(** What opening a path for reading yields: an [errno] value or a file. *)
Inductive lookup_result : Type :=
| NoAccess (e : Z)
| Readable (f : file).

(** Everything outside the process that an execution could consult. *)
Record world : Type := mkworld {
  argv : list string;
  environ : list string;
  stdin_bytes : list byte;
  fs : string -> lookup_result;
  strerror : Z -> string
}.

(** An open stream ([FILE]). *)
Record FILE : Type := mkFILE {
  unread : list byte;
  fault_in : option nat;
  eof_ind : bool;
  err_ind : bool
}.

Definition handle := nat.

(** The calls on files that an execution makes, in order: [fopen] with
    its path and result, [fgetc] with the value it returned, [fclose]. *)
Inductive event : Type :=
| EvOpen (path : string) (fp : option handle)
| EvRead (h : handle) (c : Z)
| EvClose (h : handle).

(** The process state.  [stdout] holds the bytes handed to [printf], in
    order, and [stderr] the text handed to [perror]; [streams] is the
    table of open streams. *)
Record state : Type := mkstate {
  errno : Z;
  streams : gmap handle FILE;
  next_handle : handle;
  stdout : list byte;
  stderr : string;
  trace : list event
}.

Definition initial_state : state :=
  {| errno := 0; streams := ∅; next_handle := 3%nat;
     stdout := []; stderr := EmptyString; trace := [] |}.

(** ** The monad of C library calls *)

Inductive result (A : Type) : Type :=
| Ret (a : A)          (* the computation returned [a] *)
| Exit (status : Z)    (* [exit] was called *)
| Undefined            (* undefined behaviour, or a call outside the model *)
| OutOfFuel.             (* the loop budget ran out *)
Arguments Ret {A} a.
Arguments Exit {A} status.
Arguments Undefined {A}.
Arguments OutOfFuel {A}.

Definition M (A : Type) : Type := world -> state -> result A * state.

#[global] Instance M_ret : MRet M := λ A (a : A) _ st, (Ret a, st).

#[global] Instance M_bind : MBind M := λ A B (k : A → M B) (c : M A) w st,
  match c w st with
  | (Ret a, st') => k a w st'
  | (Exit s, st') => (Exit s, st')
  | (Undefined, st') => (Undefined, st')
  | (OutOfFuel, st') => (OutOfFuel, st')
  end.

Module Libc.

Definition nl : string := String (Ascii.ascii_of_nat 10) EmptyString.

(** [fopen(path, mode)]; only mode ["r"] is modelled. *)
Definition fopen (path mode : string) : M (option handle) :=
  fun w st =>
    if bool_decide (mode = "r") then
      match fs w path with
      | NoAccess e =>
          (Ret None,
           {| errno := e; streams := streams st;
              next_handle := next_handle st; stdout := stdout st;
              stderr := stderr st;
              trace := trace st ++ [EvOpen path None] |})
      | Readable f =>
          let h := next_handle st in
          (Ret (Some h),
           {| errno := errno st;
              streams := <[h := mkFILE (f_bytes f) (f_fault f) false false]>
                           (streams st);
              next_handle := S h; stdout := stdout st;
              stderr := stderr st;
              trace := trace st ++ [EvOpen path (Some h)] |})
      end
    else (Undefined, st).

(** One read on a stream: the next byte as an [int], or [EOF] at the end
    of the file or on a read error. *)
Definition getc (s : FILE) : Z * FILE :=
  match fault_in s with
  | Some O => (EOF, mkFILE (unread s) (fault_in s) (eof_ind s) true)
  | _ =>
      match unread s with
      | [] => (EOF, mkFILE [] (fault_in s) true (err_ind s))
      | b :: rest =>
          (int_of_byte b,
           mkFILE rest (Nat.pred <$> fault_in s) (eof_ind s) (err_ind s))
      end
  end.

(** [fgetc(fp)]; a null or closed [fp] is undefined behaviour. *)
Definition fgetc (fp : option handle) : M Z :=
  fun w st =>
    match fp with
    | None => (Undefined, st)
    | Some h =>
        match streams st !! h with
        | None => (Undefined, st)
        | Some s =>
            let '(c, s') := getc s in
            (Ret c,
             {| errno := errno st; streams := <[h := s']> (streams st);
                next_handle := next_handle st; stdout := stdout st;
                stderr := stderr st;
                trace := trace st ++ [EvRead h c] |})
        end
    end.

(** [printf("%c", ch)]: one byte, the argument converted to
    [unsigned char]; the value returned is the number of bytes written. *)
Definition printf_c (ch : Z) : M Z :=
  fun w st =>
    (Ret 1,
     {| errno := errno st; streams := streams st;
        next_handle := next_handle st;
        stdout := stdout st ++ [to_uchar ch];
        stderr := stderr st; trace := trace st |}).

(** [perror(s)] for a non-empty [s]: the text, a colon and a space, the
    message for the current [errno], a newline. *)
Definition perror (s : string) : M unit :=
  fun w st =>
    (Ret (),
     {| errno := errno st; streams := streams st;
        next_handle := next_handle st; stdout := stdout st;
        stderr := stderr st +:+ s +:+ ": " +:+ strerror w (errno st) +:+ nl;
        trace := trace st |}).

(** [fclose(fp)]; a null or closed [fp] is undefined behaviour. *)
Definition fclose (fp : option handle) : M Z :=
  fun w st =>
    match fp with
    | None => (Undefined, st)
    | Some h =>
        match streams st !! h with
        | None => (Undefined, st)
        | Some _ =>
            (Ret 0,
             {| errno := errno st; streams := delete h (streams st);
                next_handle := next_handle st; stdout := stdout st;
                stderr := stderr st;
                trace := trace st ++ [EvClose h] |})
        end
    end.

Definition exit {A} (status : Z) : M A := fun _ st => (Exit status, st).

Definition out_of_fuel {A} : M A := fun _ st => (OutOfFuel, st).

End Libc.

Import Libc.

(** ** The program *)

(** [char file_name[] = "/root/flag.txt";] *)
Definition file_name : string := "/root/flag.txt".

(** [while((ch = fgetc(fp)) != EOF) printf("%c", ch);]
    One unit of [fuel] is spent per evaluation of the loop condition. *)
Fixpoint read_loop (k : char_kind) (fuel : nat) (fp : option handle) : M unit :=
  match fuel with
  | O => out_of_fuel
  | S fuel' =>
      c ← fgetc fp;
      let ch := to_char k c in
      if bool_decide (ch ≠ EOF) then
        printf_c ch;;
        read_loop k fuel' fp
      else mret ()
  end.

(** [int main()]: [fp = fopen(file_name, "r")]; on [NULL], [perror] and
    [exit(EXIT_FAILURE)]; else the loop, [fclose(fp)] and [return 0].
    Its locals are [ch], [file_name] and [fp]; it takes no argument. *)
Definition main (k : char_kind) (fuel : nat) : M Z :=
  fp ← fopen file_name "r";
  (if bool_decide (fp = None) then
     perror ("Error while opening the file." +:+ nl);;
     exit EXIT_FAILURE
   else mret ());;
  read_loop k fuel fp;;
  fclose fp;;
  mret 0.

(** An execution from a fresh process.  Returning [v] from [main] is
    [exit(v)]. *)
Definition run (k : char_kind) (fuel : nat) (w : world) : result Z * state :=
  main k fuel w initial_state.

Definition exit_status (r : result Z) : option Z :=
  match r with
  | Ret v | Exit v => Some v
  | Undefined | OutOfFuel => None
  end.

(** The program as built by [gcc] for x86-64. *)
Definition readflag : nat -> world -> result Z * state := run SignedChar.

(** [halts w status st]: with any large enough loop budget the execution
    in [w] ends with exit status [status] in the process state [st]. *)
Definition halts (w : world) (status : Z) (st : state) : Prop :=
  ∃ n : nat, ∀ fuel : nat, (n ≤ fuel)%nat →
    ∃ r, readflag fuel w = (r, st) ∧ exit_status r = Some status.

(** The paths passed to [fopen], in order. *)
Definition opened (t : list event) : list string :=
  omap (λ e, match e with EvOpen p _ => Some p | _ => None end) t.

(** The values [fgetc] returned, in order. *)
Definition reads (t : list event) : list Z :=
  omap (λ e, match e with EvRead _ c => Some c | _ => None end) t.

(** Two answers of the file system that agree on whether the path can be
    opened and, when it can, on the file. *)
Inductive same_file : lookup_result → lookup_result → Prop :=
| same_unopenable e1 e2 : same_file (NoAccess e1) (NoAccess e2)
| same_readable f : same_file (Readable f) (Readable f).

(** ** Specification functions *)

#[global] Instance byte_eq_dec : EqDecision byte := Byte.byte_eq_dec.

(** The bytes a stream hands out before the end of the file or a read
    error. *)
Definition avail (s : FILE) : list byte :=
  match fault_in s with
  | None => unread s
  | Some n => take n (unread s)
  end.

(** The same for a file that has just been opened. *)
Definition delivered (f : file) : list byte :=
  match f_fault f with
  | None => f_bytes f
  | Some n => take n (f_bytes f)
  end.

(** The bytes before the first [0xFF]. *)
Fixpoint until_ff (bs : list byte) : list byte :=
  match bs with
  | [] => []
  | b :: rest => if bool_decide (b = xff) then [] else b :: until_ff rest
  end.

(** The values read from a stream that hands out [bs], up to and
    including the first that plain signed [char] turns into [EOF]. *)
Fixpoint fetched (bs : list byte) : list Z :=
  match bs with
  | [] => [EOF]
  | b :: rest =>
      int_of_byte b :: (if bool_decide (b = xff) then [] else fetched rest)
  end.

(** A world whose file system holds one readable file, at [file_name]. *)
Definition world_with (f : file) : world :=
  {| argv := ["/readflag"]; environ := []; stdin_bytes := [];
     fs := λ p, if bool_decide (p = file_name) then Readable f else NoAccess 2;
     strerror := λ _, "No such file or directory" |}.

(** Another world with the same file at [file_name] and everything else
    different. *)
Definition world_elsewhere (f : file) : world :=
  {| argv := ["/readflag"; "--verbose"]; environ := ["LANG=C"];
     stdin_bytes := [x41];
     fs := λ p, if bool_decide (p = file_name) then Readable f
                else Readable (mkfile [x42] None);
     strerror := λ _, "Permission denied" |}.

(** A world in which [file_name] cannot be opened ([ENOENT]). *)
Definition world_without : world :=
  {| argv := ["/readflag"]; environ := []; stdin_bytes := [];
     fs := λ _, NoAccess 2;
     strerror := λ _, "No such file or directory" |}.

(** ** Conversions *)

Section conversions.

Lemma to_char_signed_ff : to_char SignedChar (int_of_byte xff) = EOF.
Proof. reflexivity. Qed.

Lemma to_char_signed_EOF : to_char SignedChar EOF = EOF.
Proof. reflexivity. Qed.

Lemma to_char_signed_byte (b : byte) :
  b ≠ xff → to_char SignedChar (int_of_byte b) ≠ EOF.
Proof. destruct b; intros Hb; try (contradiction Hb; reflexivity); discriminate. Qed.

(** [%c] gives back the byte that was read, whatever the signedness. *)
Lemma to_uchar_to_char (k : char_kind) (b : byte) :
  to_uchar (to_char k (int_of_byte b)) = b.
Proof. destruct k; destruct b; reflexivity. Qed.

Lemma to_char_unsigned_range (v : Z) : 0 ≤ to_char UnsignedChar v < 256.
Proof. unfold to_char. apply Z.mod_pos_bound. lia. Qed.

Lemma to_char_unsigned_not_EOF (v : Z) : to_char UnsignedChar v ≠ EOF.
Proof. pose proof (to_char_unsigned_range v). unfold EOF. lia. Qed.

End conversions.



(** ** The prefix before the first [0xFF] *)

Section until_ff_facts.

Lemma until_ff_prefix (bs : list byte) : until_ff bs `prefix_of` bs.
Proof.
  induction bs as [|b rest IH]; simpl; [done|].
  case_bool_decide; [apply prefix_nil | by apply prefix_cons].
Qed.

Lemma until_ff_clean (bs : list byte) : xff ∉ until_ff bs.
Proof.
  induction bs as [|b rest IH]; simpl; [apply not_elem_of_nil|].
  case_bool_decide; [apply not_elem_of_nil|].
  rewrite not_elem_of_cons. split; [congruence | exact IH].
Qed.

Lemma until_ff_longest (bs p : list byte) :
  p `prefix_of` bs → xff ∉ p → p `prefix_of` until_ff bs.
Proof.
  revert p. induction bs as [|b rest IH]; intros p Hp Hclean; simpl.
  - apply prefix_nil_inv in Hp. subst p. done.
  - destruct p as [|x p]; [apply prefix_nil|].
    pose proof (prefix_cons_inv_1 _ _ _ _ Hp) as ->.
    apply prefix_cons_inv_2 in Hp.
    apply not_elem_of_cons in Hclean as [Hne Hclean].
    rewrite bool_decide_false by congruence.
    apply prefix_cons. by apply IH.
Qed.

Lemma until_ff_id (bs : list byte) : xff ∉ bs → until_ff bs = bs.
Proof.
  induction bs as [|b rest IH]; simpl; [done|].
  rewrite not_elem_of_cons. intros [Hne Hrest].
  rewrite bool_decide_false by congruence. by rewrite IH.
Qed.

(** What follows the prefix is nothing or starts with [0xFF]. *)
Lemma until_ff_rest (bs : list byte) :
  ∃ rest, bs = until_ff bs ++ rest ∧ (rest = [] ∨ ∃ r, rest = xff :: r).
Proof.
  induction bs as [|b bs' (rest & Heq & Hrest)]; simpl.
  - exists []. split; [done | by left].
  - case_bool_decide as Hb.
    + subst b. exists (xff :: bs'). split; [done | right; by eexists].
    + exists rest. split; [simpl; congruence | exact Hrest].
Qed.

Lemma fetched_until_ff (bs : list byte) :
  ∃ c, fetched bs = (int_of_byte <$> until_ff bs) ++ [c] ∧
       (xff ∈ bs → c = int_of_byte xff) ∧ (xff ∉ bs → c = EOF).
Proof.
  induction bs as [|b rest (c & Heq & Hin & Hout)]; simpl.
  - exists EOF. split; [done|]. split; [|done].
    intros H. by apply not_elem_of_nil in H.
  - case_bool_decide as Hb.
    + subst b. exists (int_of_byte xff). split; [done|]. split; [done|].
      intros H. contradiction H. apply list_elem_of_here.
    + exists c. split; [simpl; by rewrite Heq|]. split.
      * intros [Heqb|H]%elem_of_cons; [congruence | by apply Hin].
      * rewrite not_elem_of_cons. intros [_ H]. by apply Hout.
Qed.

Lemma fetched_length (bs : list byte) :
  (length (fetched bs) ≤ S (length bs))%nat.
Proof.
  induction bs as [|b rest IH]; simpl; [lia|].
  case_bool_decide; simpl; lia.
Qed.

End until_ff_facts.

(** ** One read *)

Section getc_facts.

(** [getc] follows [avail]: [EOF] when nothing is left to hand out,
    else the next byte, and the rest stays available. *)
Lemma getc_avail (s : FILE) :
  match avail s with
  | [] => (getc s).1 = EOF ∧ avail (getc s).2 = []
  | b :: rest => (getc s).1 = int_of_byte b ∧ avail (getc s).2 = rest
  end.
Proof.
  destruct s as [bs [[|n]|] e r]; unfold avail, getc; simpl.
  - rewrite take_0. done.
  - destruct bs as [|b rest]; simpl; done.
  - destruct bs as [|b rest]; simpl; done.
Qed.

End getc_facts.

(** ** The read loop *)

Section read_loop_facts.

#[local] Arguments to_char : simpl never.
#[local] Arguments to_uchar : simpl never.
#[local] Arguments int_of_byte : simpl never.

Lemma bind_Ret {A B} (c : M A) (k : A → M B) w st a st' :
  c w st = (Ret a, st') → (c ≫= k) w st = k a w st'.
Proof. intros H. unfold mbind, M_bind. by rewrite H. Qed.

Lemma bind_OutOfFuel {A B} (c : M A) (k : A → M B) w st st' :
  c w st = (OutOfFuel, st') → (c ≫= k) w st = (OutOfFuel, st').
Proof. intros H. unfold mbind, M_bind. by rewrite H. Qed.

Lemma fgetc_open (h : handle) (s : FILE) w st :
  streams st !! h = Some s →
  fgetc (Some h) w st =
    (Ret (getc s).1,
     {| errno := errno st; streams := <[h := (getc s).2]> (streams st);
        next_handle := next_handle st; stdout := stdout st;
        stderr := stderr st;
        trace := trace st ++ [EvRead h (getc s).1] |}).
Proof. intros H. unfold fgetc. rewrite H. by destruct (getc s). Qed.

(** With plain [char] signed, the loop ends once the stream has handed
    out its bytes or a [0xFF]; it echoes the bytes before that point. *)
Lemma read_loop_signed (fuel : nat) (h : handle) (w : world) :
  ∀ (s : FILE) (st : state),
    streams st !! h = Some s →
    (length (avail s) < fuel)%nat →
    ∃ s', read_loop SignedChar fuel (Some h) w st =
      (Ret (),
       {| errno := errno st; streams := <[h := s']> (streams st);
          next_handle := next_handle st;
          stdout := stdout st ++ until_ff (avail s);
          stderr := stderr st;
          trace := trace st ++ (EvRead h <$> fetched (avail s)) |}).
Proof.
  induction fuel as [|fuel IH]; intros s st Hs Hlen; [lia|].
  simpl. rewrite (bind_Ret _ _ _ _ _ _ (fgetc_open h s w st Hs)).
  pose proof (getc_avail s) as Hg.
  destruct (avail s) as [|b rest]; destruct Hg as [Hc Ha]; rewrite Hc.
  - rewrite bool_decide_false by (intros H; by apply H).
    exists (getc s).2. simpl. by rewrite app_nil_r.
  - simpl. destruct (decide (b = xff)) as [->|Hb].
    + rewrite bool_decide_false by (intros H; by apply H).
      rewrite bool_decide_true by done.
      exists (getc s).2. simpl. by rewrite app_nil_r.
    + rewrite bool_decide_true by (by apply to_char_signed_byte).
      rewrite (bool_decide_false (b = xff)) by done.
      erewrite bind_Ret by reflexivity.
      edestruct (IH (getc s).2) as [s' ->].
      * simpl. apply lookup_insert_eq.
      * rewrite Ha. simpl in Hlen. lia.
      * exists s'. simpl.
        rewrite insert_insert_eq, to_uchar_to_char, Ha, <- !app_assoc.
        done.
Qed.

(** With plain [char] unsigned no value compares equal to [EOF]: the
    loop spends any budget. *)
Lemma read_loop_unsigned (fuel : nat) (h : handle) (w : world) :
  ∀ (s : FILE) (st : state),
    streams st !! h = Some s →
    ∃ st', read_loop UnsignedChar fuel (Some h) w st = (OutOfFuel, st').
Proof.
  induction fuel as [|fuel IH]; intros s st Hs; simpl; [by eexists|].
  rewrite (bind_Ret _ _ _ _ _ _ (fgetc_open h s w st Hs)).
  rewrite bool_decide_true by apply to_char_unsigned_not_EOF.
  erewrite bind_Ret by reflexivity.
  apply (IH (getc s).2). simpl. apply lookup_insert_eq.
Qed.

(** The loop consults nothing outside the process state. *)
Lemma read_loop_world (k : char_kind) (fuel : nat) (fp : option handle)
    (w w' : world) (st : state) :
  read_loop k fuel fp w st = read_loop k fuel fp w' st.
Proof.
  revert st. induction fuel as [|fuel IH]; intros st; simpl; [done|].
  unfold mbind, M_bind.
  replace (fgetc fp w' st) with (fgetc fp w st) by done.
  destruct (fgetc fp w st) as [[c| | |] st1]; try done.
  case_bool_decide; [|done].
  replace (printf_c (to_char k c) w' st1)
    with (printf_c (to_char k c) w st1) by done.
  destruct (printf_c (to_char k c) w st1) as [[n| | |] st2];
    [apply IH | done..].
Qed.

End read_loop_facts.

(** ** The two paths through [main] *)

Section main_facts.

(** [fopen] failed: the message goes to standard error and the process
    exits before the loop, whatever the budget and the signedness. *)
Lemma run_open_failure (k : char_kind) (fuel : nat) (w : world) (e : Z) :
  fs w file_name = NoAccess e →
  run k fuel w =
    (Exit EXIT_FAILURE,
     {| errno := e; streams := ∅; next_handle := 3%nat; stdout := [];
        stderr := "Error while opening the file." +:+ nl +:+ ": "
                  +:+ strerror w e +:+ nl;
        trace := [EvOpen file_name None] |}).
Proof.
  intros Hfs. unfold run, main.
  erewrite bind_Ret; last first.
  { unfold fopen. rewrite bool_decide_true by done. rewrite Hfs. done. }
  done.
Qed.

Lemma fopen_readable (w : world) (f : file) :
  fs w file_name = Readable f →
  fopen file_name "r" w initial_state =
    (Ret (Some 3%nat),
     {| errno := 0;
        streams := <[3%nat := mkFILE (f_bytes f) (f_fault f) false false]> ∅;
        next_handle := 4%nat; stdout := []; stderr := EmptyString;
        trace := [EvOpen file_name (Some 3%nat)] |}).
Proof.
  intros Hfs. unfold fopen.
  rewrite bool_decide_true by done. by rewrite Hfs.
Qed.

(** [fopen] succeeded and plain [char] is signed. *)
Lemma run_open_success (fuel : nat) (w : world) (f : file) :
  fs w file_name = Readable f →
  (length (delivered f) < fuel)%nat →
  readflag fuel w =
    (Ret 0,
     {| errno := 0; streams := ∅; next_handle := 4%nat;
        stdout := until_ff (delivered f); stderr := EmptyString;
        trace := EvOpen file_name (Some 3%nat)
                 :: (EvRead 3%nat <$> fetched (delivered f))
                 ++ [EvClose 3%nat] |}).
Proof.
  intros Hfs Hfuel. unfold readflag, run, main.
  rewrite (bind_Ret _ _ _ _ _ _ (fopen_readable w f Hfs)).
  rewrite bool_decide_false by done.
  erewrite bind_Ret by reflexivity.
  lazymatch goal with
  | |- (_ ≫= _) _ ?st = _ =>
      destruct (read_loop_signed fuel 3%nat w
                  (mkFILE (f_bytes f) (f_fault f) false false) st)
        as [s' Hloop]; [apply lookup_insert_eq | exact Hfuel |]
  end.
  simpl in Hloop. erewrite bind_Ret by exact Hloop.
  erewrite bind_Ret; last first.
  { unfold fclose. simpl. rewrite lookup_insert_eq. done. }
  unfold mret, M_ret.
  rewrite insert_insert_eq, delete_insert_eq, delete_empty. done.
Qed.

(** [fopen] succeeded and plain [char] is unsigned: no budget is
    enough. *)
Lemma run_unsigned_char (fuel : nat) (w : world) (f : file) :
  fs w file_name = Readable f →
  ∃ st, run UnsignedChar fuel w = (OutOfFuel, st).
Proof.
  intros Hfs. unfold run, main.
  rewrite (bind_Ret _ _ _ _ _ _ (fopen_readable w f Hfs)).
  rewrite bool_decide_false by done.
  erewrite bind_Ret by reflexivity.
  lazymatch goal with
  | |- ∃ _, (_ ≫= _) _ ?st = _ =>
      destruct (read_loop_unsigned fuel 3%nat w
                  (mkFILE (f_bytes f) (f_fault f) false false) st)
        as [st' Hloop]; [apply lookup_insert_eq |]
  end.
  exists st'. by apply bind_OutOfFuel.
Qed.

(** An execution consults the world only through the answer of the file
    system at [file_name] and, when that is a failure, through the
    message of its [errno]. *)
Lemma run_world (k : char_kind) (fuel : nat) (w w' : world) :
  fs w file_name = fs w' file_name →
  (∀ e, fs w file_name = NoAccess e → strerror w e = strerror w' e) →
  run k fuel w = run k fuel w'.
Proof.
  intros Hfs Hmsg. destruct (fs w file_name) as [e|f] eqn:Hw.
  - rewrite (run_open_failure k fuel w e Hw).
    rewrite (run_open_failure k fuel w' e) by done.
    by rewrite (Hmsg e).
  - symmetry in Hfs. unfold run, main.
    rewrite (bind_Ret _ _ _ _ _ _ (fopen_readable w f Hw)).
    rewrite (bind_Ret _ _ _ _ _ _ (fopen_readable w' f Hfs)).
    rewrite bool_decide_false by done.
    erewrite !bind_Ret by reflexivity.
    unfold mbind at 1 3, M_bind at 1 3.
    rewrite (read_loop_world k fuel _ w w'). done.
Qed.

Lemma delivered_length (f : file) :
  (length (delivered f) ≤ length (f_bytes f))%nat.
Proof.
  unfold delivered. destruct (f_fault f); [|done].
  rewrite length_take. lia.
Qed.

Lemma reads_fetched (h : handle) (l : list Z) : reads (EvRead h <$> l) = l.
Proof.
  induction l as [|c l IH]; [done|].
  unfold reads in *. simpl. by f_equal.
Qed.

End main_facts.

(** ** Executions as a whole *)

Section executions.

Lemma halts_failure (w : world) (e : Z) :
  fs w file_name = NoAccess e →
  halts w EXIT_FAILURE
    {| errno := e; streams := ∅; next_handle := 3%nat; stdout := [];
       stderr := "Error while opening the file." +:+ nl +:+ ": "
                 +:+ strerror w e +:+ nl;
       trace := [EvOpen file_name None] |}.
Proof.
  intros Hfs. exists 0%nat. intros fuel _. eexists.
  split; [by apply run_open_failure | reflexivity].
Qed.

Lemma halts_success (w : world) (f : file) :
  fs w file_name = Readable f →
  halts w 0
    {| errno := 0; streams := ∅; next_handle := 4%nat;
       stdout := until_ff (delivered f); stderr := EmptyString;
       trace := EvOpen file_name (Some 3%nat)
                :: (EvRead 3%nat <$> fetched (delivered f))
                ++ [EvClose 3%nat] |}.
Proof.
  intros Hfs. exists (S (length (delivered f))). intros fuel Hfuel.
  eexists. split; [apply run_open_success; [done | lia] | reflexivity].
Qed.

Lemma opened_app (t1 t2 : list event) :
  opened (t1 ++ t2) = opened t1 ++ opened t2.
Proof. apply omap_app. Qed.

(** The loop opens nothing, also when it is cut short. *)
Lemma read_loop_opened (k : char_kind) (fuel : nat) (fp : option handle)
    (w : world) :
  ∀ st, opened (trace (read_loop k fuel fp w st).2) = opened (trace st).
Proof.
  induction fuel as [|fuel IH]; intros st; simpl; [done|].
  unfold mbind at 1, M_bind at 1.
  destruct fp as [h|]; simpl; [|done].
  destruct (streams st !! h) as [s|]; simpl; [|done].
  destruct (getc s) as [c s1]. simpl.
  case_bool_decide; simpl.
  - erewrite bind_Ret by reflexivity. rewrite IH. simpl.
    rewrite opened_app. simpl. apply app_nil_r.
  - rewrite opened_app. simpl. apply app_nil_r.
Qed.

Lemma fclose_opened (fp : option handle) (w : world) (st : state) :
  opened (trace (fclose fp w st).2) = opened (trace st).
Proof.
  unfold fclose. destruct fp as [h|]; [|done].
  destruct (streams st !! h); simpl; [|done].
  rewrite opened_app. simpl. apply app_nil_r.
Qed.

(** Every execution, finished or not, has called [fopen] once, on
    [file_name]. *)
Lemma run_opened (k : char_kind) (fuel : nat) (w : world) :
  opened (trace (run k fuel w).2) = [file_name].
Proof.
  destruct (fs w file_name) as [e|f] eqn:Hfs.
  - by rewrite (run_open_failure k fuel w e Hfs).
  - unfold run, main.
    rewrite (bind_Ret _ _ _ _ _ _ (fopen_readable w f Hfs)).
    rewrite bool_decide_false by done.
    erewrite bind_Ret by reflexivity.
    unfold mbind at 1, M_bind at 1.
    lazymatch goal with
    | |- context [read_loop k fuel ?fp w ?st] =>
        pose proof (read_loop_opened k fuel fp w st) as Hloop;
        destruct (read_loop k fuel fp w st) as [[[]| | |] st']
    end; simpl in Hloop; try exact Hloop.
    unfold mbind, M_bind.
    pose proof (fclose_opened (Some 3%nat) w st') as Hclose.
    destruct (fclose (Some 3%nat) w st') as [[z| | |] st''];
      simpl in *; congruence.
Qed.

End executions.

(** ** Properties of the program *)

Section properties.

Lemma reads_success_trace (p : string) (fp : option handle) (h h' : handle)
    (l : list Z) :
  reads (EvOpen p fp :: (EvRead h <$> l) ++ [EvClose h']) = l.
Proof.
  unfold reads. simpl. rewrite omap_app. simpl. rewrite app_nil_r.
  apply reads_fetched.
Qed.

Lemma delivered_prefix (f : file) : delivered f `prefix_of` f_bytes f.
Proof. unfold delivered. destruct (f_fault f); [apply prefix_take | done]. Qed.

(** C1 (refuted by the code): a readable file is not always copied
    whole.  For the three-byte file [41 FF 42] the program writes the
    single byte [41] and exits with status 0: the byte [0xFF], stored in
    the signed [char ch], compares equal to [EOF] and ends the loop. *)
Theorem readflag_stops_at_ff :
  ∃ st, halts (world_with (mkfile [x41; xff; x42] None)) 0 st ∧
        stdout st = [x41] ∧
        reads (trace st) = [65; 255].
Proof.
  eexists. split; [by apply halts_success | split; reflexivity].
Qed.

(** A file without [0xFF] whose reads all succeed is copied whole. *)
Corollary readflag_copies_clean_file (w : world) (bs : list byte) :
  fs w file_name = Readable (mkfile bs None) →
  xff ∉ bs →
  ∃ st, halts w 0 st ∧ stdout st = bs.
Proof.
  intros Hfs Hclean. eexists. split; [by apply halts_success|].
  by apply until_ff_id.
Qed.

(** C2: when [fopen] fails, the program writes a non-empty message to
    standard error, exits with a non-zero status, writes nothing to
    standard output, and its only call on files is that one failed
    [fopen]. *)
Theorem open_failure_reported (w : world) (e : Z) (fuel : nat) :
  fs w file_name = NoAccess e →
  ∃ status st,
    readflag fuel w = (Exit status, st) ∧
    status ≠ 0 ∧
    stderr st ≠ EmptyString ∧
    stdout st = [] ∧
    trace st = [EvOpen file_name None].
Proof.
  intros Hfs. do 2 eexists.
  split; [by apply run_open_failure|].
  split; [done|]. split; [|done]. simpl. discriminate.
Qed.

Lemma open_failure_reported_witness :
  ∃ status st,
    readflag 0 world_without = (Exit status, st) ∧
    status ≠ 0 ∧
    stderr st ≠ EmptyString ∧
    stdout st = [] ∧
    trace st = [EvOpen file_name None].
Proof. apply (open_failure_reported world_without 2 0). reflexivity. Defined.

(** C3: when [fopen] succeeds the program exits with status 0 and the
    bytes on standard output are a prefix of the file that holds no
    [0xFF].  When no read fails, it is the longest such prefix, and the
    values read are those bytes followed by one more: the first [0xFF]
    if the file has one, else [EOF]. *)
Theorem output_is_longest_prefix_without_ff (w : world) (f : file) :
  fs w file_name = Readable f →
  ∃ st, halts w 0 st ∧
    (stdout st `prefix_of` f_bytes f) ∧
    (xff ∉ stdout st) ∧
    (f_fault f = None →
       (∀ p, p `prefix_of` f_bytes f → xff ∉ p → p `prefix_of` stdout st) ∧
       ∃ c, reads (trace st) = (int_of_byte <$> stdout st) ++ [c] ∧
            (xff ∈ f_bytes f → c = int_of_byte xff) ∧
            (xff ∉ f_bytes f → c = EOF)).
Proof.
  intros Hfs. eexists. split; [by apply halts_success|].
  cbn [stdout trace]. split; [|split].
  - etrans; [apply until_ff_prefix | apply delivered_prefix].
  - apply until_ff_clean.
  - intros Hfault. unfold delivered. rewrite Hfault. split.
    + apply until_ff_longest.
    + rewrite reads_success_trace. apply fetched_until_ff.
Qed.

Lemma output_is_longest_prefix_without_ff_witness :
  ∃ st, halts (world_with (mkfile [x41; xff; x42] None)) 0 st ∧
    (stdout st `prefix_of` [x41; xff; x42]) ∧
    (xff ∉ stdout st) ∧
    (@None nat = None →
       (∀ p, p `prefix_of` [x41; xff; x42] → xff ∉ p →
             p `prefix_of` stdout st) ∧
       ∃ c, reads (trace st) = (int_of_byte <$> stdout st) ++ [c] ∧
            (xff ∈ [x41; xff; x42] → c = int_of_byte xff) ∧
            (xff ∉ [x41; xff; x42] → c = EOF)).
Proof.
  apply (output_is_longest_prefix_without_ff
           (world_with (mkfile [x41; xff; x42] None))
           (mkfile [x41; xff; x42] None)).
  reflexivity.
Defined.

(** C4: when [fopen] succeeds the program exits with status 0, whether
    or not a read fails on the way ([f_fault] is arbitrary). *)
Theorem open_success_exits_zero (w : world) (f : file) :
  fs w file_name = Readable f → ∃ st, halts w 0 st.
Proof. intros Hfs. eexists. by apply halts_success. Qed.

Lemma open_success_exits_zero_witness :
  ∃ st, halts (world_with (mkfile [x41; x42; x43] (Some 1%nat))) 0 st.
Proof.
  apply (open_success_exits_zero
           (world_with (mkfile [x41; x42; x43] (Some 1%nat)))
           (mkfile [x41; x42; x43] (Some 1%nat))).
  reflexivity.
Defined.

(** A read error after one byte: the byte is echoed, the error is not
    noticed, the status is 0. *)
Example read_error_goes_unnoticed :
  readflag 4 (world_with (mkfile [x41; x42; x43] (Some 1%nat))) =
    (Ret 0,
     {| errno := 0; streams := ∅; next_handle := 4%nat; stdout := [x41];
        stderr := EmptyString;
        trace := [EvOpen file_name (Some 3%nat); EvRead 3%nat 65;
                  EvRead 3%nat EOF; EvClose 3%nat] |}).
Proof. vm_compute. reflexivity. Qed.

(** C5: for an empty file the program writes nothing to standard output
    and exits with status 0. *)
Theorem empty_file_empty_output (w : world) (f : file) :
  fs w file_name = Readable f →
  f_bytes f = [] →
  ∃ st, halts w 0 st ∧ stdout st = [].
Proof.
  intros Hfs Hempty. eexists. split; [by apply halts_success|]. simpl.
  unfold delivered. rewrite Hempty. by destruct (f_fault f) as [[|n]|].
Qed.

Lemma empty_file_empty_output_witness :
  ∃ st, halts (world_with (mkfile [] None)) 0 st ∧ stdout st = [].
Proof.
  apply (empty_file_empty_output (world_with (mkfile [] None))
           (mkfile [] None)); reflexivity.
Defined.

(** C6: two executions for which the file system gives the same answer
    at [file_name] (both fail to open it, or both open the same file)
    end with the same exit status and the same bytes on standard
    output, whatever else differs between the two worlds. *)
Theorem readflag_deterministic (w1 w2 : world) (fuel : nat) :
  same_file (fs w1 file_name) (fs w2 file_name) →
  exit_status (readflag fuel w1).1 = exit_status (readflag fuel w2).1 ∧
  stdout (readflag fuel w1).2 = stdout (readflag fuel w2).2.
Proof.
  intros Hsame. unfold readflag.
  destruct (fs w1 file_name) as [e1|f1] eqn:H1;
    destruct (fs w2 file_name) as [e2|f2] eqn:H2;
    inversion Hsame; subst.
  - rewrite (run_open_failure _ fuel w1 e1 H1).
    by rewrite (run_open_failure _ fuel w2 e2 H2).
  - rewrite (run_world SignedChar fuel w1 w2); [done | congruence |].
    intros e He. congruence.
Qed.

Lemma readflag_deterministic_witness :
  exit_status (readflag 5 (world_with (mkfile [x41; x42] None))).1 =
    exit_status (readflag 5 (world_elsewhere (mkfile [x41; x42] None))).1 ∧
  stdout (readflag 5 (world_with (mkfile [x41; x42] None))).2 =
    stdout (readflag 5 (world_elsewhere (mkfile [x41; x42] None))).2.
Proof.
  apply (readflag_deterministic
           (world_with (mkfile [x41; x42] None))
           (world_elsewhere (mkfile [x41; x42] None)) 5).
  apply same_readable.
Defined.

(** Termination: the program halts in every world.  When the file opens,
    [fgetc] is called at most once more than the file has bytes; when it
    does not, [fgetc] is never called. *)
Theorem readflag_terminates (w : world) :
  ∃ status st, halts w status st ∧
    match fs w file_name with
    | NoAccess _ => reads (trace st) = []
    | Readable f => (length (reads (trace st)) ≤ S (length (f_bytes f)))%nat
    end.
Proof.
  destruct (fs w file_name) as [e|f] eqn:Hfs.
  - do 2 eexists. split; [by apply halts_failure | done].
  - do 2 eexists. split; [by apply halts_success|].
    cbn [trace]. rewrite reads_success_trace.
    pose proof (fetched_length (delivered f)).
    pose proof (delivered_length f). lia.
Qed.

(** C7 (refuted by the code): the loop ends, but not always because the
    end of the stream was reached.  For the three-byte file [41 FF 42]
    the program halts with status 0 after two calls of [fgetc], which
    returned 65 and 255: [fgetc] never returned [EOF], and the byte
    [0x42] was never read.  The value 255, stored in the signed [char
    ch], compares equal to [EOF] and ends the loop. *)
Theorem read_loop_stops_before_end_of_stream :
  ∃ st, halts (world_with (mkfile [x41; xff; x42] None)) 0 st ∧
        reads (trace st) = [65; 255] ∧
        (EOF ∉ reads (trace st)) ∧
        (length (reads (trace st)) < length [x41; xff; x42])%nat.
Proof.
  eexists. split; [by apply halts_success|].
  set (r := reads _). assert (r = [65; 255]) as -> by reflexivity.
  split; [reflexivity|]. split; [|simpl; lia].
  rewrite !not_elem_of_cons. repeat split; [discriminate.. | ].
  apply not_elem_of_nil.
Qed.

(** C8: in every execution, finished or not, the paths passed to
    [fopen] are exactly the one path ["/root/flag.txt"], and the whole
    execution (result and process state) is the same whatever the
    command-line arguments, the environment variables and the bytes on
    standard input are. *)
Theorem one_fixed_path_no_other_input (fuel : nat)
    (args args' : list string) (env env' : list string)
    (input input' : list byte)
    (fsys : string → lookup_result) (msg : Z → string) :
  opened (trace (readflag fuel (mkworld args env input fsys msg)).2)
    = ["/root/flag.txt"] ∧
  readflag fuel (mkworld args env input fsys msg)
    = readflag fuel (mkworld args' env' input' fsys msg).
Proof.
  split; [apply run_opened | by apply run_world].
Qed.

(** C9: at the end of every execution no stream is open.  When [fopen]
    fails no handle was handed out and nothing else is called on files;
    when it succeeds the calls on files are the [fopen], the reads on
    its handle, and last the [fclose] of that handle. *)
Theorem handle_released (w : world) :
  ∃ status st, halts w status st ∧
    streams st = ∅ ∧
    match fs w file_name with
    | NoAccess _ => trace st = [EvOpen file_name None]
    | Readable _ =>
        ∃ h rd, trace st = EvOpen file_name (Some h)
                           :: (EvRead h <$> rd) ++ [EvClose h]
    end.
Proof.
  destruct (fs w file_name) as [e|f] eqn:Hfs.
  - do 2 eexists. split; [by apply halts_failure | done].
  - do 2 eexists. split; [by apply halts_success|].
    split; [done|]. by do 2 eexists.
Qed.

(** C10: when [fopen] fails with [errno] [e], the exit status is
    [EXIT_FAILURE], which is 1, and standard error holds the text
    ["Error while opening the file."], a newline, a colon and a space,
    the system's message for [e], and a newline. *)
Theorem open_failure_status_and_message (w : world) (e : Z) (fuel : nat) :
  fs w file_name = NoAccess e →
  ∃ st,
    readflag fuel w = (Exit EXIT_FAILURE, st) ∧
    EXIT_FAILURE = 1 ∧
    stderr st = "Error while opening the file." +:+ nl +:+ ": "
                +:+ strerror w e +:+ nl.
Proof.
  intros Hfs. eexists. split; [by apply run_open_failure | done].
Qed.

Lemma open_failure_status_and_message_witness :
  ∃ st,
    readflag 0 world_without = (Exit EXIT_FAILURE, st) ∧
    EXIT_FAILURE = 1 ∧
    stderr st = "Error while opening the file." +:+ nl +:+ ": "
                +:+ "No such file or directory" +:+ nl.
Proof.
  apply (open_failure_status_and_message world_without 2 0). reflexivity.
Defined.

(** Built with plain [char] unsigned, the same source never leaves the
    loop once the file is open: no budget is enough. *)
Remark unsigned_char_never_halts (w : world) (f : file) (fuel : nat) :
  fs w file_name = Readable f →
  ∃ st, run UnsignedChar fuel w = (OutOfFuel, st).
Proof. apply run_unsigned_char. Qed.

End properties.

(** ** Executions cut short, and the other build *)

Section partial_executions.

#[local] Arguments to_char : simpl never.
#[local] Arguments to_uchar : simpl never.
#[local] Arguments int_of_byte : simpl never.

Lemma fclose_open (h : handle) (s : FILE) (w : world) (st : state) :
  streams st !! h = Some s →
  fclose (Some h) w st =
    (Ret 0,
     {| errno := errno st; streams := delete h (streams st);
        next_handle := next_handle st; stdout := stdout st;
        stderr := stderr st; trace := trace st ++ [EvClose h] |}).
Proof. intros H. unfold fclose. by rewrite H. Qed.

Lemma fclose_stdout (fp : option handle) (w : world) (st : state) :
  stdout (fclose fp w st).2 = stdout st.
Proof.
  unfold fclose. destruct fp as [h|]; [|done].
  by destruct (streams st !! h).
Qed.

(** What follows the loop in [main] writes nothing to standard output. *)
Lemma after_loop_stdout (c : M ()) (fp : option handle) (w : world)
    (st : state) :
  stdout ((c ≫= λ _, fclose fp ≫= λ _, mret 0) w st).2 = stdout (c w st).2.
Proof.
  unfold mbind, M_bind.
  destruct (c w st) as [[[]| | |] st']; simpl; try done.
  pose proof (fclose_stdout fp w st') as Hclose.
  by destruct (fclose fp w st') as [[z| | |] st''].
Qed.

(** On an open stream the loop either returns or runs out of budget, and
    leaves the stream open: [fgetc] is never undefined. *)
Lemma read_loop_safe (k : char_kind) (fuel : nat) (h : handle) (w : world) :
  ∀ (s : FILE) (st : state),
    streams st !! h = Some s →
    ∃ st', (read_loop k fuel (Some h) w st = (Ret (), st') ∨
            read_loop k fuel (Some h) w st = (OutOfFuel, st')) ∧
           is_Some (streams st' !! h).
Proof.
  induction fuel as [|fuel IH]; intros s st Hs; simpl.
  - exists st. split; [by right | by eexists].
  - rewrite (bind_Ret _ _ _ _ _ _ (fgetc_open h s w st Hs)).
    case_bool_decide.
    + erewrite bind_Ret by reflexivity.
      apply (IH (getc s).2). simpl. apply lookup_insert_eq.
    + eexists. split; [by left|]. simpl. rewrite lookup_insert_eq. by eexists.
Qed.

(** With plain [char] signed, after [fuel] evaluations of the loop
    condition the loop has echoed the first [fuel] of the bytes it will
    echo in all. *)
Lemma read_loop_signed_so_far (fuel : nat) (h : handle) (w : world) :
  ∀ (s : FILE) (st : state),
    streams st !! h = Some s →
    stdout (read_loop SignedChar fuel (Some h) w st).2 =
      stdout st ++ take fuel (until_ff (avail s)).
Proof.
  induction fuel as [|fuel IH]; intros s st Hs; simpl.
  - by rewrite ?take_0, ?app_nil_r.
  - rewrite (bind_Ret _ _ _ _ _ _ (fgetc_open h s w st Hs)).
    pose proof (getc_avail s) as Hg.
    destruct (avail s) as [|b rest]; destruct Hg as [Hc Ha]; rewrite Hc.
    + rewrite bool_decide_false by (intros H; by apply H).
      simpl. by rewrite app_nil_r.
    + simpl. destruct (decide (b = xff)) as [->|Hb].
      * rewrite bool_decide_false by (intros H; by apply H).
        rewrite bool_decide_true by done. simpl. by rewrite app_nil_r.
      * rewrite bool_decide_true by (by apply to_char_signed_byte).
        rewrite (bool_decide_false (b = xff)) by done.
        erewrite bind_Ret by reflexivity.
        rewrite (IH (getc s).2) by (simpl; apply lookup_insert_eq).
        simpl. by rewrite to_uchar_to_char, Ha, <- app_assoc.
Qed.

(** With plain [char] unsigned every evaluation of the loop condition is
    followed by a [printf]: of the next byte while the stream hands one
    out, of [0xFF] (the converted [EOF]) afterwards. *)
Lemma read_loop_unsigned_output (fuel : nat) (h : handle) (w : world) :
  ∀ (s : FILE) (st : state),
    streams st !! h = Some s →
    ∃ st', read_loop UnsignedChar fuel (Some h) w st = (OutOfFuel, st') ∧
           stdout st' =
             stdout st ++ take fuel (avail s)
               ++ replicate (fuel - length (avail s)) xff.
Proof.
  induction fuel as [|fuel IH]; intros s st Hs; simpl.
  - exists st. split; [done|]. by rewrite ?take_0, ?app_nil_r.
  - rewrite (bind_Ret _ _ _ _ _ _ (fgetc_open h s w st Hs)).
    rewrite bool_decide_true by apply to_char_unsigned_not_EOF.
    erewrite bind_Ret by reflexivity.
    destruct (IH (getc s).2
                {| errno := errno st;
                   streams := <[h := (getc s).2]> (streams st);
                   next_handle := next_handle st;
                   stdout := stdout st ++ [to_uchar (to_char UnsignedChar (getc s).1)];
                   stderr := stderr st;
                   trace := trace st ++ [EvRead h (getc s).1] |})
      as (st' & Hrun & Hout); [simpl; apply lookup_insert_eq|].
    exists st'. split; [exact Hrun|]. rewrite Hout. simpl.
    pose proof (getc_avail s) as Hg.
    destruct (avail s) as [|b rest]; destruct Hg as [Hc Ha]; rewrite Hc, Ha.
    + simpl. rewrite take_nil, Nat.sub_0_r, <- app_assoc. done.
    + simpl. by rewrite to_uchar_to_char, <- app_assoc.
Qed.

(** Two executions that halt in the same world agree. *)
Lemma halts_unique (w : world) (s1 s2 : Z) (st1 st2 : state) :
  halts w s1 st1 → halts w s2 st2 → s1 = s2 ∧ st1 = st2.
Proof.
  intros [n1 H1] [n2 H2].
  destruct (H1 (n1 `max` n2)%nat) as (r1 & Hr1 & He1); [lia|].
  destruct (H2 (n1 `max` n2)%nat) as (r2 & Hr2 & He2); [lia|].
  rewrite Hr1 in Hr2. inversion Hr2; subst. split; congruence.
Qed.

End partial_executions.

(** ** Further properties of [main] *)

Section further_properties.

(** X1: for a file that opens and whose reads all succeed, the bytes on
    standard output are the whole file exactly when the file holds no
    [0xFF] byte; every other byte value, [0x00] and the values from
    [0x80] up included, passes through. *)
Theorem readflag_copies_iff_no_ff (w : world) (bs : list byte) :
  fs w file_name = Readable (mkfile bs None) →
  ∃ st, halts w 0 st ∧ (stdout st = bs ↔ xff ∉ bs).
Proof.
  intros Hfs. eexists. split; [by apply halts_success|].
  cbn [stdout delivered f_fault f_bytes]. split.
  - intros Heq. rewrite <- Heq. apply until_ff_clean.
  - apply until_ff_id.
Qed.

Lemma readflag_copies_iff_no_ff_witness :
  ∃ st, halts (world_with (mkfile [x00; x80; xfe; x0a] None)) 0 st ∧
        (stdout st = [x00; x80; xfe; x0a] ↔ xff ∉ [x00; x80; xfe; x0a]).
Proof.
  apply (readflag_copies_iff_no_ff
           (world_with (mkfile [x00; x80; xfe; x0a] None))
           [x00; x80; xfe; x0a]).
  reflexivity.
Defined.

(** X2: the program cannot tell a read error from the end of the file.
    A file whose read fails after [n] bytes and a file that ends after
    those [n] bytes lead to the same final process state (standard
    output, standard error, calls on files) and the same exit status 0. *)
Theorem read_error_is_end_of_file (w1 w2 : world) (bs : list byte) (n : nat) :
  fs w1 file_name = Readable (mkfile bs (Some n)) →
  fs w2 file_name = Readable (mkfile (take n bs) None) →
  ∃ st, halts w1 0 st ∧ halts w2 0 st.
Proof.
  intros H1 H2. eexists. split.
  - by apply halts_success.
  - by apply (halts_success w2 (mkfile (take n bs) None)).
Qed.

Lemma read_error_is_end_of_file_witness :
  ∃ st, halts (world_with (mkfile [x41; x42; x43] (Some 1%nat))) 0 st ∧
        halts (world_with (mkfile [x41] None)) 0 st.
Proof.
  apply (read_error_is_end_of_file
           (world_with (mkfile [x41; x42; x43] (Some 1%nat)))
           (world_with (mkfile [x41] None))
           [x41; x42; x43] 1); reflexivity.
Defined.

(** X3: the exit status tells whether the file was opened.  Every world
    has one halting execution; its status is 0 exactly when [fopen]
    succeeded and [EXIT_FAILURE] exactly when it failed, and standard
    error is empty exactly when [fopen] succeeded. *)
Theorem exit_status_tells_open_result (w : world) :
  ∃ status st,
    halts w status st ∧
    (∀ status' st', halts w status' st' → status' = status ∧ st' = st) ∧
    (status = 0 ↔ ∃ f, fs w file_name = Readable f) ∧
    (status = EXIT_FAILURE ↔ ∃ e, fs w file_name = NoAccess e) ∧
    (stderr st = EmptyString ↔ ∃ f, fs w file_name = Readable f).
Proof.
  destruct (fs w file_name) as [e|f] eqn:Hfs.
  - pose proof (halts_failure w e Hfs) as Hhalt.
    do 2 eexists. split; [exact Hhalt|]. split; [|split; [|split]].
    + intros s' st' H'. apply (halts_unique w _ _ _ _ H' Hhalt).
    + split; [discriminate | intros [f Hf]; discriminate].
    + split; [by eexists | done].
    + simpl. split; [discriminate | intros [f Hf]; discriminate].
  - pose proof (halts_success w f Hfs) as Hhalt.
    do 2 eexists. split; [exact Hhalt|]. split; [|split; [|split]].
    + intros s' st' H'. apply (halts_unique w _ _ _ _ H' Hhalt).
    + split; [by eexists | done].
    + split; [discriminate | intros [e He]; discriminate].
    + split; [by eexists | done].
Qed.

(** X4: no execution, finished or cut short, under either signedness of
    plain [char], runs into undefined behaviour: [fgetc] and [fclose]
    are only ever called on the open stream.  An execution returns 0
    from [main], exits with [EXIT_FAILURE], or is still in the loop. *)
Theorem run_never_undefined (k : char_kind) (fuel : nat) (w : world) :
  (run k fuel w).1 = Ret 0 ∨
  (run k fuel w).1 = Exit EXIT_FAILURE ∨
  (run k fuel w).1 = OutOfFuel.
Proof.
  destruct (fs w file_name) as [e|f] eqn:Hfs.
  - right; left. by rewrite (run_open_failure k fuel w e Hfs).
  - unfold run, main.
    rewrite (bind_Ret _ _ _ _ _ _ (fopen_readable w f Hfs)).
    rewrite bool_decide_false by done.
    erewrite bind_Ret by reflexivity.
    lazymatch goal with
    | |- context [(read_loop k fuel ?fp ≫= _) w ?st] =>
        destruct (read_loop_safe k fuel 3%nat w
                    (mkFILE (f_bytes f) (f_fault f) false false) st)
          as (st' & [Hloop|Hloop] & [s' Hs']); [apply lookup_insert_eq | |]
    end.
    + left. erewrite bind_Ret by exact Hloop.
      rewrite (bind_Ret _ _ _ _ _ _ (fclose_open 3%nat s' w st' Hs')). done.
    + right; right. erewrite bind_OutOfFuel by exact Hloop. done.
Qed.

(** X5: built with plain [char] unsigned, once the file is open the
    program never leaves the loop, and after [fuel] evaluations of the
    loop condition it has written the bytes the file delivered followed
    by one [0xFF] byte per evaluation after they ran out. *)
Theorem unsigned_char_output (w : world) (f : file) (fuel : nat) :
  fs w file_name = Readable f →
  ∃ st, run UnsignedChar fuel w = (OutOfFuel, st) ∧
        stdout st = take fuel (delivered f)
                    ++ replicate (fuel - length (delivered f)) xff.
Proof.
  intros Hfs. unfold run, main.
  rewrite (bind_Ret _ _ _ _ _ _ (fopen_readable w f Hfs)).
  rewrite bool_decide_false by done.
  erewrite bind_Ret by reflexivity.
  lazymatch goal with
  | |- ∃ _, (_ ≫= _) _ ?st = _ ∧ _ =>
      destruct (read_loop_unsigned_output fuel 3%nat w
                  (mkFILE (f_bytes f) (f_fault f) false false) st)
        as (st' & Hloop & Hout); [apply lookup_insert_eq |]
  end.
  exists st'. split; [by apply bind_OutOfFuel | exact Hout].
Qed.

Lemma unsigned_char_output_witness :
  ∃ st, run UnsignedChar 5 (world_with (mkfile [x41; x42] None))
          = (OutOfFuel, st) ∧
        stdout st = take 5 (delivered (mkfile [x41; x42] None))
                    ++ replicate (5 - length (delivered (mkfile [x41; x42] None)))
                         xff.
Proof.
  apply (unsigned_char_output (world_with (mkfile [x41; x42] None))
           (mkfile [x41; x42] None) 5).
  reflexivity.
Defined.

(** X6: an execution depends on the world only through the answer of
    the file system at ["/root/flag.txt"] and, when that answer is a
    failure, through the message for its [errno]: files at other paths
    and the other messages have no influence on the result or on the
    final process state, under either signedness and for every budget. *)
Theorem run_ignores_other_paths (k : char_kind) (fuel : nat) (w w' : world) :
  fs w file_name = fs w' file_name →
  (∀ e, fs w file_name = NoAccess e → strerror w e = strerror w' e) →
  run k fuel w = run k fuel w'.
Proof. apply run_world. Qed.

Lemma run_ignores_other_paths_witness :
  run SignedChar 5 (world_with (mkfile [x41; x42] None))
    = run SignedChar 5 (world_elsewhere (mkfile [x41; x42] None)).
Proof.
  apply (run_ignores_other_paths SignedChar 5
           (world_with (mkfile [x41; x42] None))
           (world_elsewhere (mkfile [x41; x42] None))).
  - reflexivity.
  - intros e He. discriminate He.
Defined.

(** X7: at every point of an execution the bytes written so far are a
    prefix of the file: after [fuel] evaluations of the loop condition
    standard output holds the first [fuel] bytes of what the finished
    execution writes. *)
Theorem output_so_far_is_prefix (w : world) (f : file) (fuel : nat) :
  fs w file_name = Readable f →
  ∃ st, halts w 0 st ∧
        stdout (readflag fuel w).2 = take fuel (stdout st) ∧
        stdout (readflag fuel w).2 `prefix_of` f_bytes f.
Proof.
  intros Hfs.
  assert (stdout (readflag fuel w).2 = take fuel (until_ff (delivered f)))
    as Hout.
  { unfold readflag, run, main.
    rewrite (bind_Ret _ _ _ _ _ _ (fopen_readable w f Hfs)).
    rewrite bool_decide_false by done.
    erewrite bind_Ret by reflexivity.
    rewrite after_loop_stdout.
    by rewrite (read_loop_signed_so_far fuel 3%nat w
                  (mkFILE (f_bytes f) (f_fault f) false false))
      by apply lookup_insert_eq. }
  eexists. split; [by apply halts_success|]. split; [exact Hout|].
  rewrite Hout.
  etrans; [apply prefix_take|].
  etrans; [apply until_ff_prefix | apply delivered_prefix].
Qed.

Lemma output_so_far_is_prefix_witness :
  ∃ st, halts (world_with (mkfile [x41; x42; x43] None)) 0 st ∧
        stdout (readflag 2 (world_with (mkfile [x41; x42; x43] None))).2
          = take 2 (stdout st) ∧
        stdout (readflag 2 (world_with (mkfile [x41; x42; x43] None))).2
          `prefix_of` [x41; x42; x43].
Proof.
  apply (output_so_far_is_prefix (world_with (mkfile [x41; x42; x43] None))
           (mkfile [x41; x42; x43] None) 2).
  reflexivity.
Defined.

End further_properties.
